(** * PacketStream: incremental framing of a byte stream into packets

    A shallow embedding of [src/main/network/PacketStream.ts].  The class
    is a Node [Transform] whose private fields [#buf] and [#bufLen] hold the
    bytes that have arrived and were not yet output as packets.  The
    embedding keeps the two fields, adds the queue of objects handed to
    [this.push], and runs the two methods in a state-and-exception monad, so
    that an out-of-range [readUInt8]/[readUInt16LE] shows up as a thrown
    [RangeError] instead of disappearing. *)

From Stdlib Require Import Strings.String Strings.Byte.
From Stdlib Require Import ZArith List Lia Bool.
Import ListNotations.
Local Open Scope Z_scope.

(** ** Node's Buffer, as far as the class uses it *)

Module Buf.

(** A [Buffer] is a sequence of octets.  The class never writes into a
    buffer, so views created by [subarray] are modelled by value. *)
Definition Buffer := list byte.

Inductive JsError : Type :=
| RangeError
| TypeError
| Error (message : string).

Definition u8 (b : byte) : Z := Z.of_N (Byte.to_N b).

Definition byteLength (b : Buffer) : Z := Z.of_nat (length b).

(** [Buffer.concat(list)]. *)
Definition concat (l : list Buffer) : Buffer := List.concat l.

(** [buf.readUInt8(offset)]: throws when [offset] is outside the buffer. *)
Definition readUInt8 (b : Buffer) (offset : nat) : JsError + Z :=
  match nth_error b offset with
  | Some x => inr (u8 x)
  | None => inl RangeError
  end.

(** [buf.readUInt16LE(offset)]: [first + last * 2 ** 8], throws when one
    of the two octets is outside the buffer. *)
Definition readUInt16LE (b : Buffer) (offset : nat) : JsError + Z :=
  match nth_error b offset, nth_error b (S offset) with
  | Some first, Some last => inr (u8 first + u8 last * 2 ^ 8)
  | _, _ => inl RangeError
  end.

(** [buf.subarray(start)] and [buf.subarray(start, end)] for the
    non-negative indices the class passes; both ends are clamped to the
    buffer, as in Node. *)
Definition subarray (b : Buffer) (start : Z) (stop : option Z) : Buffer :=
  let rest := skipn (Z.to_nat start) b in
  match stop with
  | None => rest
  | Some e => firstn (Z.to_nat (e - start)) rest
  end.

End Buf.
Import Buf.

(** ** The stream object *)

(** Length of a packet header in bytes: 1 byte type, 2 byte unsigned LE
    packet length. *)
Definition HEADER_LENGTH : Z := 3.

(** The objects pushed to the readable side: [{ type, data }]. *)
Record Packet : Type := mkPacket { type : Z; data : Buffer }.

(** [buf] and [bufLen] are the private fields; [readable] is the queue of
    packets already given to [this.push], oldest first.  [bufLen] is a
    JavaScript number used as an integer counter; it is kept as an integer
    of [Z], the counts being far below 2^53. *)
Record PacketStream : Type := mkStream {
  buf : list Buffer;
  bufLen : Z;
  readable : list Packet
}.

(** The part of [TransformOptions] the constructor looks at. *)
Record TransformOptions : Type := mkOptions {
  writableObjectMode : bool;
  objectMode : bool
}.

Definition object_mode_message : string :=
  "PacketStream does not support writable object mode.".

Definition constructor (options : option TransformOptions)
  : JsError + PacketStream :=
  match options with
  | Some o =>
      if writableObjectMode o || objectMode o
      then inl (Error object_mode_message)
      else inr (mkStream [] 0 [])
  | None => inr (mkStream [] 0 [])
  end.

(** The stream right after [new PacketStream()]. *)
Definition fresh : PacketStream := mkStream [] 0 [].

(** ** State and exceptions *)

Inductive Outcome (A : Type) : Type :=
| Return (a : A) (this : PacketStream)
| Throw (e : JsError) (this : PacketStream).

Arguments Return {A} a this.
Arguments Throw {A} e this.

Definition M (A : Type) : Type := PacketStream -> Outcome A.

Definition ret {A} (a : A) : M A := fun this => Return a this.

Definition bind {A B} (m : M A) (k : A -> M B) : M B :=
  fun this =>
    match m this with
    | Return a this' => k a this'
    | Throw e this' => Throw e this'
    end.

Notation "x <- m ;; k" := (bind m (fun x => k))
  (at level 61, m at next level, right associativity).
Notation "m ;;; k" := (bind m (fun _ => k))
  (at level 61, right associativity).

Definition get : M PacketStream := fun this => Return this this.

Definition throw {A} (e : JsError) : M A := fun this => Throw e this.

Definition lift {A} (r : JsError + A) : M A :=
  match r with
  | inl e => throw e
  | inr a => ret a
  end.

(** [this.#buf = l]. *)
Definition set_buf (l : list Buffer) : M unit :=
  fun this => Return tt (mkStream l (bufLen this) (readable this)).

(** [this.#bufLen = n]. *)
Definition set_bufLen (n : Z) : M unit :=
  fun this => Return tt (mkStream (buf this) n (readable this)).

(** [this.#buf[0]] used as a buffer: on an empty array the element is
    [undefined] and calling a method on it is a [TypeError]. *)
Definition buf0 : M Buffer :=
  fun this =>
    match buf this with
    | b :: _ => Return b this
    | [] => Throw TypeError this
    end.

(** [this.#buf[0] = b]: an assignment at index 0 of an empty array makes it
    an array of one element. *)
Definition set_buf0 (b : Buffer) : M unit :=
  fun this =>
    match buf this with
    | _ :: rest => Return tt (mkStream (b :: rest) (bufLen this) (readable this))
    | [] => Return tt (mkStream [b] (bufLen this) (readable this))
    end.

(** [this.#buf.push(b)]. *)
Definition buf_push (b : Buffer) : M unit :=
  fun this => Return tt (mkStream (buf this ++ [b]) (bufLen this) (readable this)).

(** [this.push(p)]. *)
Definition push (p : Packet) : M unit :=
  fun this => Return tt (mkStream (buf this) (bufLen this) (readable this ++ [p])).

(** ** [#tryReadPacket] *)

Definition tryReadPacket (shouldConcatHeader : bool) : M bool :=
  this <- get ;;
  if bufLen this <? HEADER_LENGTH then ret false
  else
    (if shouldConcatHeader
     then set_buf [Buf.concat (buf this)]
     else ret tt) ;;;
    b <- buf0 ;;
    packetType <- lift (readUInt8 b 0) ;;
    b <- buf0 ;;
    packetLength <- lift (readUInt16LE b 1) ;;
    this <- get ;;
    if bufLen this <? HEADER_LENGTH + packetLength then ret false
    else
      b <- buf0 ;;
      set_buf0 (subarray b HEADER_LENGTH None) ;;;
      this <- get ;;
      set_buf [Buf.concat (buf this)] ;;;
      b <- buf0 ;;
      push (mkPacket packetType (subarray b 0 (Some packetLength))) ;;;
      b <- buf0 ;;
      set_buf0 (subarray b packetLength None) ;;;
      this <- get ;;
      set_bufLen (bufLen this - (HEADER_LENGTH + packetLength)) ;;;
      ret true.

(** ** [_transform] *)

(** What [_transform] receives as [chunk: any]. *)
Inductive BufferEncoding : Type :=
| ascii | utf8 | utf16le | ucs2 | base64 | base64url | latin1 | binary | hex.

Inductive JsValue : Type :=
| JsUndefined
| JsNull
| JsBoolean (b : bool)
| JsNumber (n : Z)
| JsObject (keys : list string).

Inductive Chunk : Type :=
| ChunkBuffer (b : Buffer)
| ChunkString (s : string) (encoding : BufferEncoding)
| ChunkOther (v : JsValue).

(** What [_transform] passes to [callback]: nothing, or an error. *)
Inductive Callback : Type :=
| Done
| Failed (e : JsError).

(** [while (this.#tryReadPacket(shouldConcatHeader)) shouldConcatHeader = false].
    Every successful read takes at least the three header bytes off
    [bufLen], so [bufLen + 1] rounds are enough;
    [while_tryReadPacket_unfold] below shows that the bound is never what
    stops the loop. *)
Fixpoint while_fuel (fuel : nat) (shouldConcatHeader : bool) : M unit :=
  match fuel with
  | O => ret tt
  | S fuel' =>
      again <- tryReadPacket shouldConcatHeader ;;
      if again then while_fuel fuel' false else ret tt
  end.

Definition while_tryReadPacket (shouldConcatHeader : bool) : M unit :=
  this <- get ;;
  while_fuel (S (Z.to_nat (bufLen this))) shouldConcatHeader.

Section Transform.

(** [Buffer.from(string, encoding)], Node's own decoding of a string. *)
Variable Buffer_from : string -> BufferEncoding -> Buffer.

(** The [instanceof Buffer] / [typeof chunk === 'string'] dispatch:
    the buffer to frame, or nothing for any other value. *)
Definition chunk_bytes (chunk : Chunk) : option Buffer :=
  match chunk with
  | ChunkBuffer b => Some b
  | ChunkString s encoding => Some (Buffer_from s encoding)
  | ChunkOther _ => None
  end.

Definition _transform (chunk : Chunk) : M Callback :=
  match chunk_bytes chunk with
  | None => ret (Failed (Error object_mode_message))
  | Some chunkBuf =>
      buf_push chunkBuf ;;;
      this <- get ;;
      let shouldConcatHeader := bufLen this <? HEADER_LENGTH in
      set_bufLen (bufLen this + byteLength chunkBuf) ;;;
      while_tryReadPacket shouldConcatHeader ;;;
      ret Done
  end.

(** Chunks handed to [_transform] one after the other. *)
Fixpoint feed (chunks : list Chunk) : M (list Callback) :=
  match chunks with
  | [] => ret []
  | c :: rest =>
      r <- _transform c ;;
      rs <- feed rest ;;
      ret (r :: rs)
  end.

(** What [_transform] answers for a chunk when nothing is thrown. *)
Definition answer (chunk : Chunk) : Callback :=
  match chunk_bytes chunk with
  | Some _ => Done
  | None => Failed (Error object_mode_message)
  end.

(** The packets output by a fresh stream that is given the byte chunks
    one after the other; nothing if something is thrown on the way. *)
Definition output_of (chunks : list Buffer) : option (list Packet) :=
  match feed (map ChunkBuffer chunks) fresh with
  | Return _ this => Some (readable this)
  | Throw _ _ => None
  end.

(** All the bytes a list of chunks brings, in order. *)
Definition received (chunks : list Chunk) : Buffer :=
  flat_map (fun c => match chunk_bytes c with Some b => b | None => [] end)
           chunks.

End Transform.

(** The buffer that the two header reads of [#tryReadPacket] look at:
    [this.#buf[0]] after the optional coalescing. *)
Definition header_chunk (shouldConcatHeader : bool) (this : PacketStream)
  : option Buffer :=
  if shouldConcatHeader then Some (Buf.concat (buf this))
  else hd_error (buf this).

(** ** The wire format and the logical view of the state *)

(** The octet with unsigned value [z], for [0 <= z <= 255]. *)
Definition byte_of (z : Z) : byte :=
  match Byte.of_N (Z.to_N z) with
  | Some b => b
  | None => x00
  end.

(** A packet fits the wire format when its type is one octet and its
    payload length fits the 16-bit field. *)
Definition encodable (p : Packet) : bool :=
  (0 <=? type p) && (type p <=? 255) && (byteLength (data p) <=? 65535).

(** 1 type byte, 2-byte little-endian length, then the payload. *)
Definition encode (p : Packet) : Buffer :=
  byte_of (type p)
    :: byte_of (byteLength (data p) mod 256)
    :: byte_of (byteLength (data p) / 256)
    :: data p.

Definition encode_all (ps : list Packet) : Buffer := flat_map encode ps.

(** The bytes held by [#buf], as one sequence. *)
Definition pending (this : PacketStream) : Buffer := Buf.concat (buf this).

(** A byte sequence starts with a whole packet: three header bytes and at
    least as many further bytes as the header announces. *)
Definition complete_front (l : Buffer) : bool :=
  match l with
  | _ :: lo :: hi :: tail => u8 lo + u8 hi * 2 ^ 8 <=? byteLength tail
  | _ => false
  end.

(** Otherwise it is a partial header or a header with a partial payload
    (or nothing at all). *)
Definition waiting (l : Buffer) : Prop := complete_front l = false.

(** The first stored chunk holds the whole header as soon as three bytes
    are buffered. *)
Definition header_in_first (this : PacketStream) : Prop :=
  HEADER_LENGTH <= bufLen this ->
  match buf this with
  | b :: _ => HEADER_LENGTH <= byteLength b
  | [] => False
  end.

(** What holds whenever [#tryReadPacket] is called: the cached count is
    right, and either the call coalesces or the header is already in the
    first chunk. *)
Definition read_ready (shouldConcatHeader : bool) (this : PacketStream) : Prop :=
  bufLen this = byteLength (pending this) /\
  (shouldConcatHeader = false -> header_in_first this).

(** What holds between two calls of [_transform]. *)
Definition settled (this : PacketStream) : Prop :=
  read_ready false this /\ waiting (pending this).

(** [calls Buffer_from c s0 flag s]: while [_transform c] runs on [s0],
    [#tryReadPacket flag] is called in state [s]. *)
Inductive calls (Buffer_from : string -> BufferEncoding -> Buffer)
          (c : Chunk) (s0 : PacketStream) : bool -> PacketStream -> Prop :=
| calls_first chunkBuf :
    chunk_bytes Buffer_from c = Some chunkBuf ->
    calls Buffer_from c s0 (bufLen s0 <? HEADER_LENGTH)
          (mkStream (buf s0 ++ [chunkBuf])
                    (bufLen s0 + byteLength chunkBuf)
                    (readable s0))
| calls_next flag s s' :
    calls Buffer_from c s0 flag s ->
    tryReadPacket flag s = Return true s' ->
    calls Buffer_from c s0 false s'.

(** A stream that was built by the constructor and then only driven
    through [_transform]. *)
Inductive reachable (Buffer_from : string -> BufferEncoding -> Buffer)
  : PacketStream -> Prop :=
| reachable_fresh : reachable Buffer_from fresh
| reachable_transform c s r s' :
    reachable Buffer_from s ->
    _transform Buffer_from c s = Return r s' ->
    reachable Buffer_from s'.

(** The state a call of [#tryReadPacket] leaves when it has to wait: the
    chunks are coalesced when the flag asked for it and the header was
    there, and nothing else changes. *)
Definition after_wait (shouldConcatHeader : bool) (this : PacketStream)
  : PacketStream :=
  if shouldConcatHeader && negb (bufLen this <? HEADER_LENGTH)
  then mkStream [pending this] (bufLen this) (readable this)
  else this.

(** The stream as a method leaves it, whether it returned or threw. *)
Definition state_of {A} (o : Outcome A) : PacketStream :=
  match o with
  | Return _ this => this
  | Throw _ this => this
  end.

(** A strict prefix of one encoded packet. *)
Definition partial_packet (l : Buffer) : Prop :=
  exists p rest, encodable p = true /\ rest <> [] /\ encode p = l ++ rest.

(** A decoding of strings used for the examples: one octet per character. *)
Definition latin1_from (s : string) (_ : BufferEncoding) : Buffer :=
  list_byte_of_string s.

(** * Properties *)

(** ** Octets and the header fields *)

Lemma u8_range (b : byte) : 0 <= u8 b <= 255.
Proof.
  unfold u8. pose proof (Byte.to_N_bounded b). lia.
Qed.

Lemma byte_of_u8 (b : byte) : byte_of (u8 b) = b.
Proof.
  unfold byte_of, u8. rewrite N2Z.id, Byte.of_to_N. reflexivity.
Qed.

Lemma u8_byte_of (z : Z) : 0 <= z <= 255 -> u8 (byte_of z) = z.
Proof.
  intros Hz. unfold byte_of, u8.
  destruct (Byte.of_N (Z.to_N z)) as [b|] eqn:E.
  - apply Byte.to_of_N in E. rewrite E. lia.
  - apply Byte.of_N_None_iff in E. lia.
Qed.

Lemma encodable_spec (p : Packet) :
  encodable p = true <-> 0 <= type p <= 255 /\ byteLength (data p) <= 65535.
Proof.
  unfold encodable. rewrite !andb_true_iff, !Z.leb_le. tauto.
Qed.

Lemma byteLength_nonneg (b : Buffer) : 0 <= byteLength b.
Proof. unfold byteLength. lia. Qed.

Lemma byteLength_app (a b : Buffer) :
  byteLength (a ++ b) = byteLength a + byteLength b.
Proof. unfold byteLength. rewrite length_app. lia. Qed.

(** ** One call of [#tryReadPacket] *)

Lemma Return_inj {A} (a b : A) (s s' : PacketStream) :
  Return a s = Return b s' -> a = b /\ s = s'.
Proof. intros H. injection H as -> ->. split; reflexivity. Qed.

Ltac run :=
  cbv [tryReadPacket bind get ret lift throw set_buf set_bufLen buf0 set_buf0
       push buf_push buf bufLen readable].

Lemma header_split (b : Buffer) :
  HEADER_LENGTH <= byteLength b ->
  exists t lo hi b', b = t :: lo :: hi :: b'.
Proof.
  unfold HEADER_LENGTH, byteLength.
  destruct b as [|t [|lo [|hi b']]]; simpl; try lia. eauto.
Qed.

(** With a whole packet at the front, the call outputs it and keeps the
    bytes after it in a single chunk. *)
Lemma tryReadPacket_emit flag this t lo hi tail :
  read_ready flag this ->
  pending this = t :: lo :: hi :: tail ->
  u8 lo + u8 hi * 2 ^ 8 <= byteLength tail ->
  tryReadPacket flag this =
  Return true
    (mkStream [skipn (Z.to_nat (u8 lo + u8 hi * 2 ^ 8)) tail]
              (bufLen this - (HEADER_LENGTH + (u8 lo + u8 hi * 2 ^ 8)))
              (readable this
                 ++ [mkPacket (u8 t)
                       (firstn (Z.to_nat (u8 lo + u8 hi * 2 ^ 8)) tail)])).
Proof.
  destruct this as [bf bl rd]. unfold read_ready, header_in_first, pending.
  cbn [buf bufLen readable]. intros [Hlen Hhead] Hp Hfull.
  assert (Hbl : bl = HEADER_LENGTH + byteLength tail).
  { rewrite Hlen, Hp. unfold HEADER_LENGTH, byteLength. cbn [length]. lia. }
  pose proof (byteLength_nonneg tail) as Htail.
  pose proof (u8_range lo) as Hlo. pose proof (u8_range hi) as Hhi.
  run.
  destruct (Z.ltb_spec bl HEADER_LENGTH) as [Hlt|_]; [lia|].
  destruct flag.
  - rewrite Hp. cbn [readUInt8 readUInt16LE nth_error].
    destruct (Z.ltb_spec bl (HEADER_LENGTH + (u8 lo + u8 hi * 2 ^ 8)))
      as [Hlt|_]; [lia|].
    unfold subarray, Buf.concat. cbn [List.concat].
    rewrite app_nil_r, Z.sub_0_r. reflexivity.
  - specialize (Hhead eq_refl ltac:(lia)).
    destruct bf as [|b rest]; [contradiction|].
    destruct (header_split b Hhead) as (t' & lo' & hi' & b' & ->).
    unfold Buf.concat in Hp. cbn in Hp. injection Hp as -> -> -> Htl.
    cbn [readUInt8 readUInt16LE nth_error].
    destruct (Z.ltb_spec bl (HEADER_LENGTH + (u8 lo + u8 hi * 2 ^ 8)))
      as [Hlt|_]; [lia|].
    unfold subarray, Buf.concat. cbn [List.concat].
    rewrite Z.sub_0_r. change (Z.to_nat HEADER_LENGTH) with 3%nat.
    change (Z.to_nat 0) with 0%nat. cbn [skipn]. rewrite Htl. reflexivity.
Qed.

(** Without a whole packet at the front, the call outputs nothing and
    keeps every byte. *)
Lemma tryReadPacket_wait flag this :
  read_ready flag this ->
  waiting (pending this) ->
  tryReadPacket flag this = Return false (after_wait flag this).
Proof.
  destruct this as [bf bl rd].
  unfold read_ready, header_in_first, waiting, after_wait, pending.
  cbn [buf bufLen readable]. intros [Hlen Hhead] Hw.
  run.
  destruct (Z.ltb_spec bl HEADER_LENGTH) as [Hlt|Hge].
  - rewrite andb_false_r. reflexivity.
  - rewrite andb_true_r.
    assert (Hsplit : exists t lo hi tail, Buf.concat bf = t :: lo :: hi :: tail).
    { apply header_split. lia. }
    destruct Hsplit as (t & lo & hi & tail & Hp).
    rewrite Hp in Hw. cbn [complete_front] in Hw. apply Z.leb_gt in Hw.
    assert (Hbl : bl = HEADER_LENGTH + byteLength tail).
    { rewrite Hlen, Hp. unfold HEADER_LENGTH, byteLength. cbn [length]. lia. }
    destruct flag.
    + rewrite Hp. cbn [readUInt8 readUInt16LE nth_error].
      destruct (Z.ltb_spec bl (HEADER_LENGTH + (u8 lo + u8 hi * 2 ^ 8)))
        as [_|Hle]; [reflexivity|lia].
    + specialize (Hhead eq_refl Hge).
      destruct bf as [|b rest]; [contradiction|].
      destruct (header_split b Hhead) as (t' & lo' & hi' & b' & ->).
      unfold Buf.concat in Hp. cbn in Hp. injection Hp as -> -> -> Htl.
      cbn [readUInt8 readUInt16LE nth_error].
      destruct (Z.ltb_spec bl (HEADER_LENGTH + (u8 lo + u8 hi * 2 ^ 8)))
        as [_|Hle]; [reflexivity|lia].
Qed.

Lemma after_wait_pending flag this :
  pending (after_wait flag this) = pending this.
Proof.
  unfold after_wait.
  destruct (flag && negb (bufLen this <? HEADER_LENGTH)); [|reflexivity].
  unfold pending, Buf.concat. cbn. apply app_nil_r.
Qed.

Lemma after_wait_bufLen flag this :
  bufLen (after_wait flag this) = bufLen this.
Proof.
  unfold after_wait.
  destruct (flag && negb (bufLen this <? HEADER_LENGTH)); reflexivity.
Qed.

Lemma after_wait_readable flag this :
  readable (after_wait flag this) = readable this.
Proof.
  unfold after_wait.
  destruct (flag && negb (bufLen this <? HEADER_LENGTH)); reflexivity.
Qed.

Lemma after_wait_ready flag this :
  read_ready flag this -> read_ready false (after_wait flag this).
Proof.
  intros [Hlen Hhead]. split.
  - rewrite after_wait_bufLen, after_wait_pending. exact Hlen.
  - intros _. unfold header_in_first. rewrite after_wait_bufLen.
    unfold after_wait. destruct flag; cbn [andb].
    + destruct (Z.ltb_spec (bufLen this) HEADER_LENGTH) as [Hlt|Hge];
        cbn [negb buf]; intros H; [lia|]. rewrite <- Hlen. exact H.
    + exact (Hhead eq_refl).
Qed.

(** A single chunk that holds exactly the counted bytes is ready for a
    call with either flag. *)
Lemma single_chunk_ready flag b rd :
  read_ready flag (mkStream [b] (byteLength b) rd).
Proof.
  split.
  - unfold pending, Buf.concat. cbn. rewrite app_nil_r. reflexivity.
  - intros _ H. exact H.
Qed.

(** ** Encoded packets *)

(** The packet that [#tryReadPacket] builds from a complete front is the
    one whose encoding that front is. *)
Lemma encode_front t lo hi tail :
  u8 lo + u8 hi * 2 ^ 8 <= byteLength tail ->
  let n := Z.to_nat (u8 lo + u8 hi * 2 ^ 8) in
  let p := mkPacket (u8 t) (firstn n tail) in
  encodable p = true /\ encode p ++ skipn n tail = t :: lo :: hi :: tail.
Proof.
  intros Hfull n p.
  pose proof (u8_range t) as Ht. pose proof (u8_range lo) as Hlo.
  pose proof (u8_range hi) as Hhi. change (2 ^ 8) with 256 in *.
  assert (Hlen : byteLength (data p) = u8 lo + u8 hi * 256).
  { unfold p, n, byteLength in *. cbn [data]. rewrite length_firstn.
    change (2 ^ 8) with 256. lia. }
  split.
  - apply encodable_spec. rewrite Hlen. unfold p. cbn [type].
    clear - Ht Hlo Hhi. lia.
  - unfold encode. rewrite Hlen. unfold p, n. cbn [type data].
    change (2 ^ 8) with 256.
    replace ((u8 lo + u8 hi * 256) mod 256) with (u8 lo)
      by (rewrite Z.mod_add, Z.mod_small; lia).
    replace ((u8 lo + u8 hi * 256) / 256) with (u8 hi)
      by (rewrite Z.div_add, Z.div_small; lia).
    rewrite !byte_of_u8. cbn [app]. rewrite firstn_skipn. reflexivity.
Qed.

Lemma length_field (L : Z) :
  0 <= L <= 65535 ->
  0 <= L mod 256 <= 255 /\ 0 <= L / 256 <= 255 /\
  L mod 256 + L / 256 * 256 = L.
Proof. intros HL. Z.div_mod_to_equations. lia. Qed.

(** The encoding of an encodable packet, followed by anything, has a
    complete front. *)
Lemma encode_complete p l :
  encodable p = true -> complete_front (encode p ++ l) = true.
Proof.
  intros He. apply encodable_spec in He. destruct He as [_ Hlen].
  pose proof (byteLength_nonneg (data p)) as H0.
  pose proof (byteLength_nonneg l) as Hl.
  unfold encode. cbn [app complete_front]. change (2 ^ 8) with 256.
  destruct (length_field (byteLength (data p))) as (Hm & Hd & Hsum); [lia|].
  rewrite !u8_byte_of by assumption.
  rewrite byteLength_app. apply Z.leb_le. lia.
Qed.

Lemma app_same_length {A} (a c b d : list A) :
  length a = length c -> a ++ b = c ++ d -> a = c /\ b = d.
Proof.
  revert c. induction a as [|x a IH]; intros [|y c] Hlen Heq;
    cbn in *; try discriminate.
  - split; [reflexivity | exact Heq].
  - injection Heq as -> Heq. injection Hlen as Hlen.
    destruct (IH c Hlen Heq) as [-> ->]. split; reflexivity.
Qed.

(** An encoded packet can be read back from the front of a stream in one
    way only. *)
Lemma encode_inj p q l m :
  encodable p = true -> encodable q = true ->
  encode p ++ l = encode q ++ m -> p = q /\ l = m.
Proof.
  intros Hp Hq Heq. apply encodable_spec in Hp, Hq.
  destruct Hp as [Htp Hlp], Hq as [Htq Hlq].
  pose proof (byteLength_nonneg (data p)) as H0p.
  pose proof (byteLength_nonneg (data q)) as H0q.
  unfold encode in Heq. cbn [app] in Heq.
  injection Heq as Ht Hlo Hhi Hdata.
  apply (f_equal u8) in Ht, Hlo, Hhi.
  destruct (length_field (byteLength (data p))) as (Hmp & Hdp & Hsp); [lia|].
  destruct (length_field (byteLength (data q))) as (Hmq & Hdq & Hsq); [lia|].
  rewrite !u8_byte_of in Ht, Hlo, Hhi by assumption.
  assert (Hlen : byteLength (data p) = byteLength (data q)) by lia.
  destruct (app_same_length (data p) (data q) l m) as [Hd Hl];
    [unfold byteLength in Hlen; lia | exact Hdata |].
  split; [|exact Hl].
  destruct p, q; cbn in *; congruence.
Qed.

(** A stream of bytes splits into encoded packets and a waiting rest in
    one way only. *)
Lemma framing_unique ps : forall qs r r',
  Forall (fun p => encodable p = true) ps ->
  Forall (fun p => encodable p = true) qs ->
  waiting r -> waiting r' ->
  encode_all ps ++ r = encode_all qs ++ r' ->
  ps = qs /\ r = r'.
Proof.
  induction ps as [|p ps IH]; intros [|q qs] r r' Hps Hqs Hr Hr' Heq;
    cbn [encode_all flat_map app] in Heq.
  - split; [reflexivity | exact Heq].
  - exfalso. apply Forall_inv in Hqs.
    rewrite Heq, <- app_assoc in Hr. unfold waiting in Hr.
    rewrite encode_complete in Hr by exact Hqs. discriminate.
  - exfalso. apply Forall_inv in Hps.
    rewrite <- Heq, <- app_assoc in Hr'. unfold waiting in Hr'.
    rewrite encode_complete in Hr' by exact Hps. discriminate.
  - pose proof (Forall_inv Hps) as Hp. pose proof (Forall_inv Hqs) as Hq.
    pose proof (Forall_inv_tail Hps) as Hps'.
    pose proof (Forall_inv_tail Hqs) as Hqs'.
    rewrite <- !app_assoc in Heq.
    destruct (encode_inj p q _ _ Hp Hq Heq) as [-> Hrest].
    destruct (IH qs r r' Hps' Hqs' Hr Hr' Hrest) as [-> ->].
    split; reflexivity.
Qed.

(** ** The loop of [_transform] *)

(** A successful call takes at least the header off the count, whatever
    the state. *)
Lemma tryReadPacket_true_shrinks flag this this' :
  tryReadPacket flag this = Return true this' ->
  HEADER_LENGTH <= bufLen this /\ bufLen this' <= bufLen this - HEADER_LENGTH.
Proof.
  destruct this as [bf bl rd]. run.
  destruct (Z.ltb_spec bl HEADER_LENGTH) as [|Hge]; [discriminate|].
  assert (Hread : forall b : Buffer,
             match readUInt16LE b 1 with
             | inr n => 0 <= n
             | inl _ => True
             end).
  { intros b. unfold readUInt16LE.
    destruct (nth_error b 1) as [x|]; [|exact I].
    destruct (nth_error b 2) as [y|]; [|exact I].
    pose proof (u8_range x). pose proof (u8_range y).
    change (2 ^ 8) with 256. lia. }
  destruct flag.
  - specialize (Hread (Buf.concat bf)).
    destruct (readUInt8 (Buf.concat bf) 0); [discriminate|].
    destruct (readUInt16LE (Buf.concat bf) 1) as [|n]; [discriminate|].
    remember (HEADER_LENGTH + n) as k eqn:Hk.
    destruct (bl <? k); [discriminate|].
    intros H. injection H as <-. cbn [bufLen]. unfold HEADER_LENGTH in *. lia.
  - destruct bf as [|b rest]; [discriminate|].
    specialize (Hread b).
    destruct (readUInt8 b 0); [discriminate|].
    destruct (readUInt16LE b 1) as [|n]; [discriminate|].
    remember (HEADER_LENGTH + n) as k eqn:Hk.
    destruct (bl <? k); [discriminate|].
    intros H. injection H as <-. cbn [bufLen]. unfold HEADER_LENGTH in *. lia.
Qed.

(** Once the bound exceeds the buffered count, its value does not
    matter. *)
Lemma while_fuel_enough n : forall m flag this,
  (Z.to_nat (bufLen this) < n)%nat ->
  (Z.to_nat (bufLen this) < m)%nat ->
  while_fuel n flag this = while_fuel m flag this.
Proof.
  induction n as [|n IH]; intros [|m] flag this Hn Hm; try lia.
  cbn [while_fuel]. unfold bind.
  destruct (tryReadPacket flag this) as [[|] this'|e this'] eqn:E;
    try reflexivity.
  apply tryReadPacket_true_shrinks in E. unfold HEADER_LENGTH in E.
  apply IH; lia.
Qed.

(** The bounded loop is the [while] loop of the source: it runs
    [#tryReadPacket], goes round again if the call said so, and stops
    otherwise. *)
Lemma while_tryReadPacket_unfold flag this :
  while_tryReadPacket flag this =
  (again <- tryReadPacket flag ;;
   if again then while_tryReadPacket false else ret tt) this.
Proof.
  unfold while_tryReadPacket at 1. unfold bind at 1, get.
  cbn [while_fuel]. unfold bind.
  destruct (tryReadPacket flag this) as [[|] this'|e this'] eqn:E;
    try reflexivity.
  apply tryReadPacket_true_shrinks in E. unfold HEADER_LENGTH in E.
  unfold while_tryReadPacket, bind, get. apply while_fuel_enough; lia.
Qed.

(** From a state that is ready for the first call, the loop outputs the
    packets encoded at the front of the buffered bytes, one after the
    other, and leaves the bytes after them. *)
Lemma while_fuel_frames n : forall flag this,
  read_ready flag this ->
  (length (pending this) < n)%nat ->
  exists ps this',
    while_fuel n flag this = Return tt this' /\
    pending this = encode_all ps ++ pending this' /\
    readable this' = readable this ++ ps /\
    settled this' /\
    Forall (fun p => encodable p = true) ps.
Proof.
  induction n as [|n IH]; intros flag this Hready Hn; [lia|].
  cbn [while_fuel]. unfold bind.
  destruct (complete_front (pending this)) eqn:Hfront.
  - destruct (pending this) as [|t [|lo [|hi tail]]] eqn:Hp;
      try discriminate.
    cbn [complete_front] in Hfront. apply Z.leb_le in Hfront.
    rewrite (tryReadPacket_emit flag this t lo hi tail Hready Hp Hfront).
    destruct (encode_front t lo hi tail Hfront) as [Henc Hsplit].
    set (len := u8 lo + u8 hi * 2 ^ 8) in *.
    set (p := mkPacket (u8 t) (firstn (Z.to_nat len) tail)) in *.
    set (rest := skipn (Z.to_nat len) tail) in *.
    assert (Hcount : bufLen this - (HEADER_LENGTH + len) = byteLength rest).
    { destruct Hready as [-> _]. rewrite Hp.
      pose proof (u8_range lo). pose proof (u8_range hi).
      unfold rest, byteLength, HEADER_LENGTH in *. rewrite length_skipn.
      cbn [length]. subst len. change (2 ^ 8) with 256 in *. lia. }
    rewrite Hcount.
    destruct (IH false (mkStream [rest] (byteLength rest)
                                 (readable this ++ [p])))
      as (ps & this' & Hrun & Hbytes & Hout & Hset & Hall).
    { apply single_chunk_ready. }
    { unfold pending, Buf.concat. cbn [buf List.concat].
      rewrite app_nil_r. unfold rest. rewrite length_skipn.
      cbn [length] in Hn. lia. }
    exists (p :: ps), this'. repeat split; try assumption.
    + cbn [encode_all flat_map]. rewrite <- app_assoc.
      fold (encode_all ps). rewrite <- Hsplit. f_equal.
      unfold pending at 1, Buf.concat in Hbytes.
      cbn [buf List.concat] in Hbytes. rewrite app_nil_r in Hbytes.
      exact Hbytes.
    + rewrite Hout. cbn [readable]. rewrite <- app_assoc. reflexivity.
    + destruct Hset as [[? _] _]. assumption.
    + destruct Hset as [[_ ?] _]. assumption.
    + destruct Hset as [_ ?]. assumption.
    + constructor; assumption.
  - rewrite (tryReadPacket_wait flag this Hready Hfront).
    exists [], (after_wait flag this). repeat split.
    + rewrite after_wait_pending. reflexivity.
    + rewrite after_wait_readable, app_nil_r. reflexivity.
    + apply after_wait_ready. exact Hready.
    + apply after_wait_ready. exact Hready.
    + unfold waiting. rewrite after_wait_pending. exact Hfront.
    + constructor.
Qed.

Lemma encode_all_app ps qs :
  encode_all (ps ++ qs) = encode_all ps ++ encode_all qs.
Proof. apply flat_map_app. Qed.

Lemma pending_push bf b bl rd :
  pending (mkStream (bf ++ [b]) bl rd) = Buf.concat bf ++ b.
Proof.
  unfold pending, Buf.concat. cbn [buf]. rewrite concat_app. cbn.
  rewrite app_nil_r. reflexivity.
Qed.

Lemma fresh_settled : settled fresh.
Proof.
  repeat split.
  intros _. unfold header_in_first, fresh, HEADER_LENGTH. cbn. lia.
Qed.

(** ** [_transform] and sequences of chunks *)

Section Framing.

Variable Buffer_from : string -> BufferEncoding -> Buffer.

(** The state in which the loop of [_transform] starts. *)
Lemma pushed_ready this b :
  read_ready false this ->
  read_ready (bufLen this <? HEADER_LENGTH)
             (mkStream (buf this ++ [b]) (bufLen this + byteLength b)
                       (readable this)).
Proof.
  destruct this as [bf bl rd]. intros [Hlen Hhead]. cbn [buf bufLen readable] in *.
  split.
  - cbn [bufLen]. rewrite pending_push, byteLength_app, Hlen. reflexivity.
  - intros Hflag Hge. apply Z.ltb_ge in Hflag.
    specialize (Hhead eq_refl Hflag). cbn [buf] in *.
    destruct bf as [|b0 rest]; [contradiction|]. exact Hhead.
Qed.

(** One byte chunk: the packets that the buffered bytes and the chunk
    complete are output, in order, and the rest waits. *)
Lemma transform_frames c b this :
  read_ready false this ->
  chunk_bytes Buffer_from c = Some b ->
  exists ps this',
    _transform Buffer_from c this = Return Done this' /\
    pending this ++ b = encode_all ps ++ pending this' /\
    readable this' = readable this ++ ps /\
    settled this' /\
    Forall (fun p => encodable p = true) ps.
Proof.
  intros Hready Hc.
  pose proof (pushed_ready this b Hready) as Hpushed.
  set (this1 := mkStream (buf this ++ [b]) (bufLen this + byteLength b)
                         (readable this)) in *.
  destruct (while_fuel_frames (S (Z.to_nat (bufLen this1)))
              (bufLen this <? HEADER_LENGTH) this1 Hpushed)
    as (ps & this' & Hrun & Hbytes & Hout & Hset & Hall).
  { destruct Hpushed as [-> _]. unfold byteLength. lia. }
  exists ps, this'. repeat split; try apply Hset; try assumption.
  - unfold _transform. rewrite Hc.
    unfold bind, buf_push, get, set_bufLen, while_tryReadPacket, ret.
    cbn [buf bufLen readable]. fold this1. unfold bind, get.
    rewrite Hrun. reflexivity.
  - rewrite <- Hbytes. unfold this1. rewrite pending_push. reflexivity.
Qed.

(** Anything else is answered with an error and changes nothing. *)
Lemma transform_rejects c this :
  chunk_bytes Buffer_from c = None ->
  _transform Buffer_from c this = Return (Failed (Error object_mode_message)) this.
Proof.
  intros Hc. unfold _transform. rewrite Hc. reflexivity.
Qed.

(** A sequence of chunks: nothing is thrown, and the stream of bytes
    seen so far is the encoding of the packets output so far followed by
    the buffered bytes. *)
Lemma feed_frames cs : forall this,
  settled this ->
  exists ps this',
    feed Buffer_from cs this = Return (map (answer Buffer_from) cs) this' /\
    pending this ++ received Buffer_from cs = encode_all ps ++ pending this' /\
    readable this' = readable this ++ ps /\
    settled this' /\
    Forall (fun p => encodable p = true) ps.
Proof.
  induction cs as [|c cs IH]; intros this Hset.
  - exists [], this. cbn. rewrite !app_nil_r. repeat split; try apply Hset.
    constructor.
  - cbn [feed received flat_map]. unfold bind at 1.
    destruct (chunk_bytes Buffer_from c) as [b|] eqn:Hc.
    + destruct (transform_frames c b this (proj1 Hset) Hc)
        as (ps1 & this1 & Hrun1 & Hbytes1 & Hout1 & Hset1 & Hall1).
      destruct (IH this1 Hset1)
        as (ps2 & this2 & Hrun2 & Hbytes2 & Hout2 & Hset2 & Hall2).
      exists (ps1 ++ ps2), this2.
      rewrite Hrun1. unfold bind, ret. rewrite Hrun2.
      cbn [map].
      replace (answer Buffer_from c) with Done
        by (unfold answer; rewrite Hc; reflexivity).
      repeat split; try apply Hset2.
      * fold (received Buffer_from cs).
        rewrite app_assoc, Hbytes1, <- app_assoc, Hbytes2.
        rewrite encode_all_app, <- app_assoc. reflexivity.
      * rewrite Hout2, Hout1, <- app_assoc. reflexivity.
      * apply Forall_app. split; assumption.
    + destruct (IH this Hset)
        as (ps & this' & Hrun & Hbytes & Hout & Hset' & Hall).
      exists ps, this'.
      rewrite (transform_rejects c this Hc). unfold bind, ret. rewrite Hrun.
      cbn [map].
      replace (answer Buffer_from c) with (Failed (Error object_mode_message))
        by (unfold answer; rewrite Hc; reflexivity).
      repeat split; try apply Hset'; try assumption.
Qed.

Lemma reachable_settled this : reachable Buffer_from this -> settled this.
Proof.
  induction 1 as [|c s r s' _ IH Hrun]; [exact fresh_settled|].
  destruct (chunk_bytes Buffer_from c) as [b|] eqn:Hc.
  - destruct (transform_frames c b s (proj1 IH) Hc)
      as (ps & s'' & Hrun' & _ & _ & Hset & _).
    rewrite Hrun in Hrun'. injection Hrun' as _ ->. exact Hset.
  - rewrite (transform_rejects c s Hc) in Hrun.
    injection Hrun as _ <-. exact IH.
Qed.

(** Every call of [#tryReadPacket] made by [_transform] finds the
    stream ready for it. *)
Lemma calls_ready c s0 flag s :
  read_ready false s0 -> calls Buffer_from c s0 flag s -> read_ready flag s.
Proof.
  intros H0. induction 1 as [b Hc|flag s s' _ IH Hrun].
  - apply pushed_ready. exact H0.
  - destruct (complete_front (pending s)) eqn:Hfront.
    + destruct (pending s) as [|t [|lo [|hi tail]]] eqn:Hp;
        try discriminate.
      cbn [complete_front] in Hfront. apply Z.leb_le in Hfront.
      rewrite (tryReadPacket_emit flag s t lo hi tail IH Hp Hfront) in Hrun.
      apply Return_inj in Hrun as [_ <-].
      assert (Hcount : bufLen s - (HEADER_LENGTH + (u8 lo + u8 hi * 2 ^ 8))
                       = byteLength
                           (skipn (Z.to_nat (u8 lo + u8 hi * 2 ^ 8)) tail)).
      { destruct IH as [-> _]. rewrite Hp.
        pose proof (u8_range lo). pose proof (u8_range hi).
        unfold byteLength, HEADER_LENGTH in *. rewrite length_skipn.
        cbn [length]. change (2 ^ 8) with 256 in *. lia. }
      rewrite Hcount. apply single_chunk_ready.
    + rewrite (tryReadPacket_wait flag s IH Hfront) in Hrun. discriminate.
Qed.

End Framing.

(** A strict prefix of an encoded packet is never a whole packet. *)
Lemma partial_waiting l : partial_packet l -> waiting l.
Proof.
  intros (p & rest & Hp & Hrest & Heq). unfold waiting.
  destruct (complete_front l) eqn:Hfront; [exfalso|reflexivity].
  destruct l as [|t [|lo [|hi tail]]]; try discriminate.
  cbn [complete_front] in Hfront. apply Z.leb_le in Hfront.
  destruct (encode_front t lo hi tail Hfront) as [Hq Hsplit].
  set (n := Z.to_nat (u8 lo + u8 hi * 2 ^ 8)) in *.
  set (q := mkPacket (u8 t) (firstn n tail)) in *.
  assert (Heq' : encode p ++ [] = encode q ++ (skipn n tail ++ rest)).
  { rewrite app_nil_r, Heq, app_assoc, Hsplit. reflexivity. }
  destruct (encode_inj p q _ _ Hp Hq Heq') as [_ Hnil].
  symmetry in Hnil. apply app_eq_nil in Hnil. destruct Hnil as [_ Hnil].
  contradiction.
Qed.

Lemma encode_of_header t lo hi d :
  byteLength d = u8 lo + u8 hi * 2 ^ 8 ->
  encodable (mkPacket (u8 t) d) = true /\
  encode (mkPacket (u8 t) d) = t :: lo :: hi :: d.
Proof.
  intros Hd.
  pose proof (encode_front t lo hi d ltac:(lia)) as [He Hs].
  rewrite <- Hd in He, Hs. unfold byteLength in He, Hs.
  rewrite Nat2Z.id, firstn_all, skipn_all, app_nil_r in *.
  split; assumption.
Qed.

Lemma byteLength_repeat (b : byte) (n : Z) :
  0 <= n -> byteLength (repeat b (Z.to_nat n)) = n.
Proof. intros Hn. unfold byteLength. rewrite repeat_length. lia. Qed.

(** Conversely, bytes without a whole packet at the front are the
    beginning of some encoded packet. *)
Lemma waiting_partial l : waiting l -> partial_packet l.
Proof.
  unfold waiting, partial_packet. intros Hw.
  destruct l as [|t [|lo [|hi tail]]].
  - destruct (encode_of_header x00 x00 x00 [] eq_refl) as [He Hs].
    exists (mkPacket (u8 x00) []), [x00; x00; x00].
    split; [exact He|]. split; [discriminate | exact Hs].
  - destruct (encode_of_header t x00 x00 [] eq_refl) as [He Hs].
    exists (mkPacket (u8 t) []), [x00; x00].
    split; [exact He|]. split; [discriminate | exact Hs].
  - pose proof (u8_range lo) as Hlo.
    destruct (encode_of_header t lo x00 (repeat x00 (Z.to_nat (u8 lo))))
      as [He Hs].
    { rewrite byteLength_repeat by lia. change (u8 x00) with 0. lia. }
    exists (mkPacket (u8 t) (repeat x00 (Z.to_nat (u8 lo)))),
           (x00 :: repeat x00 (Z.to_nat (u8 lo))).
    split; [exact He|]. split; [discriminate | exact Hs].
  - cbn [complete_front] in Hw. apply Z.leb_gt in Hw.
    set (k := u8 lo + u8 hi * 2 ^ 8 - byteLength tail) in *.
    destruct (encode_of_header t lo hi (tail ++ repeat x00 (Z.to_nat k)))
      as [He Hs].
    { rewrite byteLength_app, byteLength_repeat by lia. lia. }
    exists (mkPacket (u8 t) (tail ++ repeat x00 (Z.to_nat k))),
           (repeat x00 (Z.to_nat k)).
    split; [exact He|]. split; [|exact Hs].
    destruct (Z.to_nat k) eqn:Hk; [lia | discriminate].
Qed.

Lemma concat_singletons (l : Buffer) :
  Buf.concat (map (fun b => [b]) l) = l.
Proof.
  unfold Buf.concat. induction l as [|b l IH]; [reflexivity|].
  cbn. f_equal. exact IH.
Qed.

Lemma waiting_nil : waiting [].
Proof. reflexivity. Qed.

(** ** The claims *)

Section Claims.

Variable Buffer_from : string -> BufferEncoding -> Buffer.

(** C1 (round trip and chunk-boundary invariance).  Take packets that fit
    the wire format, encode them one after the other, and cut the bytes
    into chunks in any way: a fresh stream given the chunks in order
    outputs exactly those packets, in order, with the same type and data.
    The output is therefore the same for every way of cutting, among them
    one byte per chunk and everything in one chunk. *)
Theorem round_trip_any_partition (ps : list Packet) (chunks : list Buffer) :
  Forall (fun p => encodable p = true) ps ->
  Buf.concat chunks = encode_all ps ->
  output_of Buffer_from chunks = Some ps /\
  output_of Buffer_from (map (fun b => [b]) (encode_all ps)) = Some ps /\
  output_of Buffer_from [encode_all ps] = Some ps.
Proof.
  intros Hall Hcat.
  assert (Hany : forall cs : list Buffer,
             Buf.concat cs = encode_all ps ->
             output_of Buffer_from cs = Some ps).
  { intros cs Hcs. unfold output_of.
    destruct (feed_frames Buffer_from (map ChunkBuffer cs) fresh fresh_settled)
      as (qs & this' & Hrun & Hbytes & Hout & Hset & Hqs).
    rewrite Hrun. f_equal. cbn [readable fresh app] in Hout. rewrite Hout.
    assert (Hrecv : received Buffer_from (map ChunkBuffer cs) = encode_all ps).
    { rewrite <- Hcs. unfold received, Buf.concat.
      rewrite flat_map_concat_map, map_map. cbn [chunk_bytes].
      rewrite map_id. reflexivity. }
    rewrite Hrecv in Hbytes. change (pending fresh) with (@nil byte) in Hbytes.
    cbn [app] in Hbytes. rewrite <- (app_nil_r (encode_all ps)) in Hbytes.
    destruct (framing_unique ps qs [] (pending this') Hall Hqs waiting_nil
                (proj2 Hset) Hbytes) as [-> _].
    reflexivity. }
  repeat split; apply Hany.
  - exact Hcat.
  - apply concat_singletons.
  - unfold Buf.concat. cbn. apply app_nil_r.
Qed.

(** C2 (header fields).  When the buffered bytes start with [b0 b1 b2],
    the extraction step takes the packet type to be the unsigned value of
    [b0], between 0 and 255, and the payload length to be the unsigned
    little-endian value [b1 + 256 * b2], between 0 and 65535.  If that many
    bytes follow the header the step outputs a packet with that type whose
    data is exactly those bytes, and keeps what comes after them; if fewer
    follow it outputs nothing and keeps everything. *)
Theorem header_fields_read (flag : bool) (this : PacketStream)
        (b0 b1 b2 : byte) (tail : Buffer) :
  read_ready flag this ->
  pending this = b0 :: b1 :: b2 :: tail ->
  let packetType := u8 b0 in
  let packetLength := u8 b1 + 256 * u8 b2 in
  0 <= packetType <= 255 /\
  0 <= packetLength <= 65535 /\
  (packetLength <= byteLength tail ->
   exists this',
     tryReadPacket flag this = Return true this' /\
     readable this' =
       readable this
         ++ [mkPacket packetType (firstn (Z.to_nat packetLength) tail)] /\
     pending this' = skipn (Z.to_nat packetLength) tail) /\
  (byteLength tail < packetLength ->
   exists this',
     tryReadPacket flag this = Return false this' /\
     readable this' = readable this /\
     pending this' = pending this).
Proof.
  intros Hready Hp packetType packetLength.
  pose proof (u8_range b0) as H0. pose proof (u8_range b1) as H1.
  pose proof (u8_range b2) as H2.
  assert (Hlen : u8 b1 + u8 b2 * 2 ^ 8 = packetLength).
  { unfold packetLength. change (2 ^ 8) with 256. lia. }
  split; [exact H0|]. split; [unfold packetLength; lia|]. split.
  - intros Hfull. rewrite <- Hlen in Hfull.
    rewrite (tryReadPacket_emit flag this b0 b1 b2 tail Hready Hp Hfull).
    rewrite Hlen. eexists. split; [reflexivity|]. split; [reflexivity|].
    unfold pending, Buf.concat. cbn. apply app_nil_r.
  - intros Hshort.
    assert (Hw : waiting (pending this)).
    { unfold waiting. rewrite Hp. cbn [complete_front]. apply Z.leb_gt. lia. }
    rewrite (tryReadPacket_wait flag this Hready Hw).
    eexists. split; [reflexivity|].
    split; [apply after_wait_readable | apply after_wait_pending].
Qed.

(** C3 (non-byte input).  In every state, a chunk that is neither a
    buffer nor a string is answered with an error; no packet is output and
    the state stays as it was, so the chunks that follow are framed as if
    the rejected one had never been given. *)
Theorem non_byte_chunk_rejected (this : PacketStream) (v : JsValue)
        (chunks : list Chunk) :
  _transform Buffer_from (ChunkOther v) this =
    Return (Failed (Error object_mode_message)) this /\
  feed Buffer_from (ChunkOther v :: chunks) this =
    (rs <- feed Buffer_from chunks ;;
     ret (Failed (Error object_mode_message) :: rs)) this.
Proof.
  split; reflexivity.
Qed.

(** C4 (buffer invariant).  After any sequence of feeds to a fresh
    stream, nothing was thrown, the cached count is the number of buffered
    bytes, and the bytes received so far are the encodings of the packets
    output so far followed by the buffered bytes: the buffer is what was
    received minus what was output.  The buffered bytes start where the
    last output packet ended, and they are a strict prefix (possibly
    empty) of one encoded packet, so the buffer is empty or begins with a
    header, whole or partial. *)
Theorem buffer_invariant (chunks : list Chunk) :
  exists this,
    feed Buffer_from chunks fresh =
      Return (map (answer Buffer_from) chunks) this /\
    bufLen this = byteLength (pending this) /\
    received Buffer_from chunks = encode_all (readable this) ++ pending this /\
    Forall (fun p => encodable p = true) (readable this) /\
    partial_packet (pending this).
Proof.
  destruct (feed_frames Buffer_from chunks fresh fresh_settled)
    as (ps & this & Hrun & Hbytes & Hout & Hset & Hall).
  cbn [readable fresh app] in Hout. change (pending fresh) with (@nil byte) in Hbytes.
  cbn [app] in Hbytes. exists this. rewrite Hout.
  repeat split; try assumption.
  - apply Hset.
  - apply waiting_partial. apply Hset.
Qed.

(** C5 (partial-state stability).  Cut the encoding of one packet into
    a strict prefix and the rest.  A fresh stream given the prefix outputs
    nothing and keeps the prefix; given the rest afterwards it outputs
    that packet and no other, and its buffer is empty again. *)
Theorem prefix_then_rest (p : Packet) (prefix rest : Buffer) :
  encodable p = true ->
  encode p = prefix ++ rest ->
  rest <> [] ->
  exists this1 this2,
    _transform Buffer_from (ChunkBuffer prefix) fresh = Return Done this1 /\
    readable this1 = [] /\
    pending this1 = prefix /\
    _transform Buffer_from (ChunkBuffer rest) this1 = Return Done this2 /\
    readable this2 = [p] /\
    pending this2 = [].
Proof.
  intros Hp Hcut Hrest.
  destruct (transform_frames Buffer_from (ChunkBuffer prefix) prefix fresh
              (proj1 fresh_settled) eq_refl)
    as (ps1 & this1 & Hrun1 & Hbytes1 & Hout1 & Hset1 & Hall1).
  change (pending fresh) with (@nil byte) in Hbytes1.
  cbn [app readable fresh] in Hbytes1, Hout1.
  assert (Hw : waiting prefix).
  { apply partial_waiting. exists p, rest. auto. }
  destruct (framing_unique [] ps1 prefix (pending this1) (Forall_nil _) Hall1
              Hw (proj2 Hset1) Hbytes1) as [<- Hpre].
  destruct (transform_frames Buffer_from (ChunkBuffer rest) rest this1
              (proj1 Hset1) eq_refl)
    as (ps2 & this2 & Hrun2 & Hbytes2 & Hout2 & Hset2 & Hall2).
  rewrite <- Hpre, <- Hcut, Hout1 in *. cbn [app] in Hout2.
  assert (Hone : encode_all [p] ++ [] = encode_all ps2 ++ pending this2).
  { cbn [encode_all flat_map]. rewrite !app_nil_r. exact Hbytes2. }
  destruct (framing_unique [p] ps2 [] (pending this2)
              (Forall_cons _ Hp (Forall_nil _)) Hall2 waiting_nil
              (proj2 Hset2) Hone) as [Hps Hnil].
  exists this1, this2. rewrite Hout2, <- Hps, <- Hnil.
  repeat split; try assumption. symmetry. exact Hpre.
Qed.

(** C6 (many packets in one chunk).  A chunk made of any number of
    encoded packets followed by a strict prefix of one more (possibly
    nothing), given to a stream whose buffer is empty, makes that one call
    output all the whole packets, in order, and nothing else; the trailing
    part stays buffered.  The chunk [1,2,0,0xAA,0xBB,2,0,0] gives
    [{type:1,data:[0xAA,0xBB]}] and then [{type:2,data:[]}]. *)
Theorem many_packets_one_chunk (this : PacketStream) (ps : list Packet)
        (partial : Buffer) :
  reachable Buffer_from this ->
  pending this = [] ->
  Forall (fun p => encodable p = true) ps ->
  partial_packet partial ->
  (exists this',
     _transform Buffer_from (ChunkBuffer (encode_all ps ++ partial)) this =
       Return Done this' /\
     readable this' = readable this ++ ps /\
     pending this' = partial) /\
  _transform Buffer_from
    (ChunkBuffer [x01; x02; x00; xaa; xbb; x02; x00; x00]) fresh =
    Return Done (mkStream [[]] 0 [mkPacket 1 [xaa; xbb]; mkPacket 2 []]).
Proof.
  intros Hreach Hempty Hall Hpart. split; [|reflexivity].
  pose proof (reachable_settled Buffer_from this Hreach) as Hset.
  destruct (transform_frames Buffer_from
              (ChunkBuffer (encode_all ps ++ partial))
              (encode_all ps ++ partial) this (proj1 Hset) eq_refl)
    as (qs & this' & Hrun & Hbytes & Hout & Hset' & Hqs).
  rewrite Hempty in Hbytes. cbn [app] in Hbytes.
  destruct (framing_unique ps qs partial (pending this') Hall Hqs
              (partial_waiting partial Hpart) (proj2 Hset') Hbytes)
    as [Hps Hrest].
  exists this'. rewrite Hout, <- Hps, <- Hrest.
  repeat split. exact Hrun.
Qed.

(** C7 (zero-length payload).  For every type byte [t], the three bytes
    [t, 0, 0] given to a stream whose buffer is empty are enough: the call
    outputs the packet of type [t] with empty data at once and the buffer
    is empty afterwards. *)
Theorem zero_length_payload (this : PacketStream) (t : byte) :
  reachable Buffer_from this ->
  pending this = [] ->
  exists this',
    _transform Buffer_from (ChunkBuffer [t; x00; x00]) this =
      Return Done this' /\
    readable this' = readable this ++ [mkPacket (u8 t) []] /\
    pending this' = [] /\
    bufLen this' = 0.
Proof.
  intros Hreach Hempty.
  pose proof (reachable_settled Buffer_from this Hreach) as Hset.
  destruct (transform_frames Buffer_from (ChunkBuffer [t; x00; x00])
              [t; x00; x00] this (proj1 Hset) eq_refl)
    as (qs & this' & Hrun & Hbytes & Hout & Hset' & Hqs).
  destruct (encode_of_header t x00 x00 [] eq_refl) as [He Hs].
  rewrite Hempty in Hbytes. cbn [app] in Hbytes.
  assert (Hone : encode_all [mkPacket (u8 t) []] ++ []
                 = encode_all qs ++ pending this').
  { cbn [encode_all flat_map]. rewrite !app_nil_r, Hs. exact Hbytes. }
  destruct (framing_unique [mkPacket (u8 t) []] qs [] (pending this')
              (Forall_cons _ He (Forall_nil _)) Hqs waiting_nil
              (proj2 Hset') Hone) as [Hps Hnil].
  exists this'. rewrite Hout, <- Hps.
  destruct Hset' as [[Hlen _] _]. rewrite Hlen, <- Hnil.
  repeat split. exact Hrun.
Qed.

(** C8 (empty chunk).  In every state a stream can be in, a chunk of
    length zero outputs nothing and leaves the buffered bytes and their
    count as they were; whatever is fed afterwards gets the same answers
    and leads to the same output, buffered bytes and count as if the
    empty chunk had not been given. *)
Theorem empty_chunk_is_noop (this : PacketStream) (chunks : list Chunk) :
  reachable Buffer_from this ->
  exists this',
    _transform Buffer_from (ChunkBuffer []) this = Return Done this' /\
    readable this' = readable this /\
    pending this' = pending this /\
    bufLen this' = bufLen this /\
    exists after_with after_without,
      feed Buffer_from chunks this' =
        Return (map (answer Buffer_from) chunks) after_with /\
      feed Buffer_from chunks this =
        Return (map (answer Buffer_from) chunks) after_without /\
      readable after_with = readable after_without /\
      pending after_with = pending after_without /\
      bufLen after_with = bufLen after_without.
Proof.
  intros Hreach.
  pose proof (reachable_settled Buffer_from this Hreach) as Hset.
  destruct (transform_frames Buffer_from (ChunkBuffer []) [] this
              (proj1 Hset) eq_refl)
    as (qs & this' & Hrun & Hbytes & Hout & Hset' & Hqs).
  rewrite app_nil_r in Hbytes.
  destruct (framing_unique [] qs (pending this) (pending this')
              (Forall_nil _) Hqs (proj2 Hset) (proj2 Hset') Hbytes)
    as [Hps Hsame].
  rewrite <- Hps, app_nil_r in Hout.
  assert (Hcount : bufLen this' = bufLen this).
  { destruct Hset as [[-> _] _], Hset' as [[-> _] _].
    rewrite Hsame. reflexivity. }
  exists this'. repeat split; try assumption; [symmetry; exact Hsame|].
  destruct (feed_frames Buffer_from chunks this' Hset')
    as (ps1 & s1 & Hrun1 & Hbytes1 & Hout1 & Hset1 & Hall1).
  destruct (feed_frames Buffer_from chunks this Hset)
    as (ps2 & s2 & Hrun2 & Hbytes2 & Hout2 & Hset2 & Hall2).
  rewrite <- Hsame, Hbytes2 in Hbytes1.
  destruct (framing_unique ps2 ps1 (pending s2) (pending s1) Hall2 Hall1
              (proj2 Hset2) (proj2 Hset1) Hbytes1) as [Hps' Hrest].
  exists s1, s2. repeat split; try assumption.
  - rewrite Hout1, Hout2, Hout, Hps'. reflexivity.
  - symmetry. exact Hrest.
  - destruct Hset1 as [[-> _] _], Hset2 as [[-> _] _].
    rewrite Hrest. reflexivity.
Qed.

(** C9 (header reads stay in bounds).  Take any state a stream can be
    in and any chunk.  [_transform] throws nothing.  Each time it calls
    the extraction step with three or more bytes counted, the buffer the
    step reads the header from, that is the first stored chunk after the
    coalescing if the flag asks for one, and the first stored chunk as it
    is if the flag is false, holds at least three bytes; both reads
    succeed and the step itself throws nothing. *)
Theorem header_reads_in_bounds (this : PacketStream) (c : Chunk) :
  reachable Buffer_from this ->
  (exists r this', _transform Buffer_from c this = Return r this') /\
  (forall flag s,
      calls Buffer_from c this flag s ->
      (exists again s', tryReadPacket flag s = Return again s') /\
      (HEADER_LENGTH <= bufLen s ->
       exists b t n,
         header_chunk flag s = Some b /\
         HEADER_LENGTH <= byteLength b /\
         readUInt8 b 0 = inr t /\
         readUInt16LE b 1 = inr n)).
Proof.
  intros Hreach.
  pose proof (reachable_settled Buffer_from this Hreach) as Hset.
  split.
  - destruct (chunk_bytes Buffer_from c) as [b|] eqn:Hc.
    + destruct (transform_frames Buffer_from c b this (proj1 Hset) Hc)
        as (ps & this' & Hrun & _).
      exists Done, this'. exact Hrun.
    + eexists _, _. apply transform_rejects. exact Hc.
  - intros flag s Hcall.
    pose proof (calls_ready Buffer_from c this flag s (proj1 Hset) Hcall)
      as Hready.
    split.
    + destruct (complete_front (pending s)) eqn:Hfront.
      * destruct (pending s) as [|t [|lo [|hi tail]]] eqn:Hp;
          try discriminate.
        cbn [complete_front] in Hfront. apply Z.leb_le in Hfront.
        eexists _, _.
        apply (tryReadPacket_emit flag s t lo hi tail Hready Hp Hfront).
      * eexists _, _. apply (tryReadPacket_wait flag s Hready Hfront).
    + intros Hge. destruct Hready as [Hlen Hhead].
      assert (Hb : exists b, header_chunk flag s = Some b /\
                             HEADER_LENGTH <= byteLength b).
      { destruct flag; cbn [header_chunk].
        - exists (Buf.concat (buf s)). split; [reflexivity|].
          fold (pending s). rewrite <- Hlen. exact Hge.
        - specialize (Hhead eq_refl Hge).
          destruct (buf s) as [|b rest]; [contradiction|].
          exists b. split; [reflexivity | exact Hhead]. }
      destruct Hb as (b & Hb & H3).
      destruct (header_split b H3) as (t & lo & hi & b' & ->).
      exists (t :: lo :: hi :: b'), (u8 t), (u8 lo + u8 hi * 2 ^ 8).
      repeat split; assumption.
Qed.

(** C10 (string chunks).  A string chunk is not rejected: it is turned
    into bytes with the encoding that comes with it, and from there on
    the call does exactly what it does for a buffer holding those bytes,
    so the state, the output and the answer are the same, also for what
    is fed afterwards. *)
Theorem string_chunk_as_bytes (this : PacketStream) (s : string)
        (encoding : BufferEncoding) (chunks : list Chunk) :
  _transform Buffer_from (ChunkString s encoding) this =
    _transform Buffer_from (ChunkBuffer (Buffer_from s encoding)) this /\
  feed Buffer_from (ChunkString s encoding :: chunks) this =
    feed Buffer_from (ChunkBuffer (Buffer_from s encoding) :: chunks) this /\
  (forall e this',
      _transform Buffer_from (ChunkString s encoding) this
      <> Return (Failed e) this').
Proof.
  split; [reflexivity|]. split; [reflexivity|].
  intros e this'. unfold _transform. cbn [chunk_bytes]. unfold bind.
  destruct (buf_push (Buffer_from s encoding) this) as [u s1|e1 s1];
    [|discriminate].
  destruct (get s1) as [s2 s3|e3 s3]; [|discriminate].
  destruct (set_bufLen (bufLen s2 + byteLength (Buffer_from s encoding)) s3)
    as [u4 s4|e4 s4]; [|discriminate].
  destruct (while_tryReadPacket (bufLen s2 <? HEADER_LENGTH) s4)
    as [u5 s5|e5 s5]; discriminate.
Qed.

End Claims.

(** ** The theorems at concrete streams *)

Lemma round_trip_any_partition_witness :
  let ps := [mkPacket 1 [xaa; xbb]; mkPacket 2 []] in
  let chunks := [[x01; x02]; [x00; xaa; xbb; x02]; []; [x00; x00]] in
  Forall (fun p => encodable p = true) ps /\
  Buf.concat chunks = encode_all ps /\
  (output_of latin1_from chunks = Some ps /\
   output_of latin1_from (map (fun b => [b]) (encode_all ps)) = Some ps /\
   output_of latin1_from [encode_all ps] = Some ps).
Proof.
  intros ps chunks.
  assert (Hall : Forall (fun p => encodable p = true) ps)
    by (repeat constructor).
  assert (Hcat : Buf.concat chunks = encode_all ps) by reflexivity.
  split; [exact Hall|]. split; [exact Hcat|].
  exact (round_trip_any_partition latin1_from ps chunks Hall Hcat).
Defined.

Lemma header_fields_read_witness :
  let this := mkStream [[x07; x02; x00; x0a]; [x0b; x0c]] 6 [] in
  read_ready false this /\
  pending this = [x07; x02; x00; x0a; x0b; x0c] /\
  (0 <= u8 x07 <= 255 /\
   0 <= u8 x02 + 256 * u8 x00 <= 65535 /\
   (u8 x02 + 256 * u8 x00 <= byteLength [x0a; x0b; x0c] ->
    exists this',
      tryReadPacket false this = Return true this' /\
      readable this' =
        readable this
          ++ [mkPacket (u8 x07)
                (firstn (Z.to_nat (u8 x02 + 256 * u8 x00)) [x0a; x0b; x0c])] /\
      pending this' =
        skipn (Z.to_nat (u8 x02 + 256 * u8 x00)) [x0a; x0b; x0c]) /\
   (byteLength [x0a; x0b; x0c] < u8 x02 + 256 * u8 x00 ->
    exists this',
      tryReadPacket false this = Return false this' /\
      readable this' = readable this /\
      pending this' = pending this)).
Proof.
  intros this.
  assert (Hready : read_ready false this).
  { split; [reflexivity|]. intros _ _. vm_compute. discriminate. }
  assert (Hp : pending this = [x07; x02; x00; x0a; x0b; x0c]) by reflexivity.
  split; [exact Hready|]. split; [exact Hp|].
  exact (header_fields_read false this x07 x02 x00 [x0a; x0b; x0c] Hready Hp).
Defined.

Lemma prefix_then_rest_witness :
  let p := mkPacket 5 [x01; x02] in
  encodable p = true /\
  encode p = [x05; x02] ++ [x00; x01; x02] /\
  [x00; x01; x02] <> [] /\
  exists this1 this2,
    _transform latin1_from (ChunkBuffer [x05; x02]) fresh = Return Done this1 /\
    readable this1 = [] /\
    pending this1 = [x05; x02] /\
    _transform latin1_from (ChunkBuffer [x00; x01; x02]) this1 =
      Return Done this2 /\
    readable this2 = [p] /\
    pending this2 = [].
Proof.
  intros p.
  assert (Hp : encodable p = true) by reflexivity.
  assert (Hcut : encode p = [x05; x02] ++ [x00; x01; x02]) by reflexivity.
  assert (Hrest : [x00; x01; x02] <> []) by discriminate.
  split; [exact Hp|]. split; [exact Hcut|]. split; [exact Hrest|].
  exact (prefix_then_rest latin1_from p [x05; x02] [x00; x01; x02]
           Hp Hcut Hrest).
Defined.

Lemma many_packets_one_chunk_witness :
  let ps := [mkPacket 1 [xaa; xbb]; mkPacket 2 []] in
  reachable latin1_from fresh /\
  pending fresh = [] /\
  Forall (fun p => encodable p = true) ps /\
  partial_packet [x03; x01] /\
  ((exists this',
      _transform latin1_from (ChunkBuffer (encode_all ps ++ [x03; x01])) fresh =
        Return Done this' /\
      readable this' = readable fresh ++ ps /\
      pending this' = [x03; x01]) /\
   _transform latin1_from
     (ChunkBuffer [x01; x02; x00; xaa; xbb; x02; x00; x00]) fresh =
     Return Done (mkStream [[]] 0 [mkPacket 1 [xaa; xbb]; mkPacket 2 []])).
Proof.
  intros ps.
  assert (Hall : Forall (fun p => encodable p = true) ps)
    by (repeat constructor).
  assert (Hpart : partial_packet [x03; x01]).
  { exists (mkPacket 3 [x09]), [x00; x09].
    split; [reflexivity|]. split; [discriminate | reflexivity]. }
  split; [apply reachable_fresh|]. split; [reflexivity|].
  split; [exact Hall|]. split; [exact Hpart|].
  exact (many_packets_one_chunk latin1_from fresh ps [x03; x01]
           (reachable_fresh latin1_from) eq_refl Hall Hpart).
Defined.

Lemma zero_length_payload_witness :
  reachable latin1_from fresh /\
  pending fresh = [] /\
  exists this',
    _transform latin1_from (ChunkBuffer [x05; x00; x00]) fresh =
      Return Done this' /\
    readable this' = readable fresh ++ [mkPacket (u8 x05) []] /\
    pending this' = [] /\
    bufLen this' = 0.
Proof.
  split; [apply reachable_fresh|]. split; [reflexivity|].
  exact (zero_length_payload latin1_from fresh x05
           (reachable_fresh latin1_from) eq_refl).
Defined.

Lemma half_fed_reachable :
  reachable latin1_from (mkStream [[x01; x05; x00; xaa]] 4 []).
Proof.
  apply (reachable_transform latin1_from
           (ChunkBuffer [x01; x05; x00; xaa]) fresh Done).
  - apply reachable_fresh.
  - reflexivity.
Defined.

Lemma empty_chunk_is_noop_witness :
  let this := mkStream [[x01; x05; x00; xaa]] 4 [] in
  let chunks := [ChunkBuffer [xbb; xcc; xdd; xee]; ChunkOther JsNull;
                 ChunkString "ab" latin1] in
  reachable latin1_from this /\
  exists this',
    _transform latin1_from (ChunkBuffer []) this = Return Done this' /\
    readable this' = readable this /\
    pending this' = pending this /\
    bufLen this' = bufLen this /\
    exists after_with after_without,
      feed latin1_from chunks this' =
        Return (map (answer latin1_from) chunks) after_with /\
      feed latin1_from chunks this =
        Return (map (answer latin1_from) chunks) after_without /\
      readable after_with = readable after_without /\
      pending after_with = pending after_without /\
      bufLen after_with = bufLen after_without.
Proof.
  intros this chunks. split; [exact half_fed_reachable|].
  exact (empty_chunk_is_noop latin1_from this chunks half_fed_reachable).
Defined.

Lemma header_reads_in_bounds_witness :
  let this := mkStream [[x01; x05; x00; xaa]] 4 [] in
  let c := ChunkBuffer [xbb] in
  reachable latin1_from this /\
  ((exists r this', _transform latin1_from c this = Return r this') /\
   (forall flag s,
       calls latin1_from c this flag s ->
       (exists again s', tryReadPacket flag s = Return again s') /\
       (HEADER_LENGTH <= bufLen s ->
        exists b t n,
          header_chunk flag s = Some b /\
          HEADER_LENGTH <= byteLength b /\
          readUInt8 b 0 = inr t /\
          readUInt16LE b 1 = inr n))).
Proof.
  intros this c. split; [exact half_fed_reachable|].
  exact (header_reads_in_bounds latin1_from this c half_fed_reachable).
Defined.

(** ** The model run on small inputs *)

Example header_split_over_chunks :
  output_of latin1_from [[x01]; [x02]; [x00; xaa]; [xbb; x02; x00]; [x00]] =
  Some [mkPacket 1 [xaa; xbb]; mkPacket 2 []].
Proof. reflexivity. Qed.

Example payload_still_missing :
  feed latin1_from [ChunkBuffer [x09; x03; x00; x0a]; ChunkBuffer [x0b]] fresh =
  Return [Done; Done] (mkStream [[x09; x03; x00; x0a]; [x0b]] 5 []).
Proof. reflexivity. Qed.

Example string_chunk_framed :
  feed latin1_from [ChunkString "A" latin1; ChunkOther (JsNumber 7);
                    ChunkBuffer [x00; x00]] fresh =
  Return [Done; Failed (Error object_mode_message); Done]
         (mkStream [[]] 0 [mkPacket 65 []]).
Proof. reflexivity. Qed.

Example constructor_rejects_object_mode :
  constructor (Some (mkOptions true false)) = inl (Error object_mode_message)
  /\ constructor None = inr fresh.
Proof. split; reflexivity. Qed.

(** * Further properties of the two methods and the constructor *)

(** ** [#tryReadPacket] in an arbitrary state *)

(** Whatever the fields hold, a call either waits (or throws) with every
    buffered byte and the output untouched, or takes one header and the
    bytes after it off the front and outputs them as one packet. *)
Lemma tryReadPacket_any flag this :
  match tryReadPacket flag this with
  | Return true this' =>
      exists t lo hi d rest,
        pending this = t :: lo :: hi :: d ++ rest /\
        byteLength d <= u8 lo + u8 hi * 2 ^ 8 /\
        HEADER_LENGTH + (u8 lo + u8 hi * 2 ^ 8) <= bufLen this /\
        this' = mkStream [rest]
                  (bufLen this - (HEADER_LENGTH + (u8 lo + u8 hi * 2 ^ 8)))
                  (readable this ++ [mkPacket (u8 t) d])
  | Return false this' | Throw _ this' =>
      readable this' = readable this /\
      bufLen this' = bufLen this /\
      pending this' = pending this
  end.
Proof.
  destruct this as [bf bl rd]. unfold pending. run.
  destruct (Z.ltb_spec bl HEADER_LENGTH) as [|Hge];
    [repeat split; reflexivity|].
  assert (Hcut : forall (tail : Buffer) (n : Z),
             0 <= n ->
             byteLength (firstn (Z.to_nat n) tail) <= n).
  { intros tail n Hn. unfold byteLength. rewrite length_firstn. lia. }
  destruct flag.
  - destruct (Buf.concat bf) as [|t [|lo [|hi tail]]] eqn:Hp;
      cbn [readUInt8 readUInt16LE nth_error];
      try (unfold Buf.concat; cbn [List.concat]; rewrite app_nil_r;
           repeat split; reflexivity).
    pose proof (u8_range lo) as Hlo. pose proof (u8_range hi) as Hhi.
    remember (u8 lo + u8 hi * 2 ^ 8) as n eqn:Hn.
    assert (H0 : 0 <= n) by (subst n; change (2 ^ 8) with 256; lia).
    destruct (Z.ltb_spec bl (HEADER_LENGTH + n)) as [|Hfull].
    + unfold Buf.concat. cbn [List.concat]. rewrite app_nil_r.
      repeat split; reflexivity.
    + exists t, lo, hi, (firstn (Z.to_nat n) tail), (skipn (Z.to_nat n) tail).
      rewrite firstn_skipn, <- Hn. repeat split; auto.
      unfold subarray, Buf.concat. cbn [List.concat].
      rewrite app_nil_r, Z.sub_0_r. reflexivity.
  - destruct bf as [|b rest]; [repeat split; reflexivity|].
    destruct b as [|t [|lo [|hi b']]];
      cbn [readUInt8 readUInt16LE nth_error];
      try (repeat split; reflexivity).
    pose proof (u8_range lo) as Hlo. pose proof (u8_range hi) as Hhi.
    remember (u8 lo + u8 hi * 2 ^ 8) as n eqn:Hn.
    assert (H0 : 0 <= n) by (subst n; change (2 ^ 8) with 256; lia).
    destruct (Z.ltb_spec bl (HEADER_LENGTH + n)) as [|Hfull];
      [repeat split; reflexivity|].
    exists t, lo, hi, (firstn (Z.to_nat n) (b' ++ List.concat rest)),
           (skipn (Z.to_nat n) (b' ++ List.concat rest)).
    rewrite firstn_skipn, <- Hn. repeat split; auto.
    unfold subarray, Buf.concat. cbn [List.concat].
    rewrite Z.sub_0_r. change (Z.to_nat HEADER_LENGTH) with 3%nat.
    change (Z.to_nat 0) with 0%nat. cbn [skipn]. reflexivity.
Qed.

(** A call that returns [false] has consumed nothing: the output, the
    count and the buffered bytes are those it found, in any state. *)
Theorem failed_read_keeps_everything (flag : bool) (this this' : PacketStream) :
  tryReadPacket flag this = Return false this' ->
  readable this' = readable this /\
  bufLen this' = bufLen this /\
  pending this' = pending this.
Proof.
  intros Hrun. pose proof (tryReadPacket_any flag this) as H.
  rewrite Hrun in H. exact H.
Qed.

(** A call that returns [true] has output exactly one packet, in any
    state: the buffered bytes were a header [t lo hi], the packet's data
    and the bytes that are left, in that order; the packet has type [t] and
    no more data than the header announces; what is left is stored as a
    single chunk, and the count went down by the header and the announced
    length. *)
Theorem successful_read_takes_one_packet (flag : bool)
        (this this' : PacketStream) :
  tryReadPacket flag this = Return true this' ->
  exists p t lo hi,
    pending this = t :: lo :: hi :: data p ++ pending this' /\
    type p = u8 t /\
    byteLength (data p) <= u8 lo + 256 * u8 hi <= 65535 /\
    readable this' = readable this ++ [p] /\
    buf this' = [pending this'] /\
    bufLen this' = bufLen this - (HEADER_LENGTH + (u8 lo + 256 * u8 hi)) /\
    0 <= bufLen this'.
Proof.
  intros Hrun. pose proof (tryReadPacket_any flag this) as H.
  rewrite Hrun in H. destruct H as (t & lo & hi & d & rest & Hp & Hd & Hfull & ->).
  pose proof (u8_range lo) as Hlo. pose proof (u8_range hi) as Hhi.
  change (2 ^ 8) with 256 in *.
  exists (mkPacket (u8 t) d), t, lo, hi.
  unfold pending at 2 3, Buf.concat. cbn [buf bufLen readable type data List.concat].
  rewrite app_nil_r. repeat split; try assumption; try lia.
Qed.

(** With the flag unset the header is read from the first stored chunk as
    it is: if three bytes are counted but that chunk is shorter, the read
    throws a [RangeError], and a [TypeError] if there is no chunk at all;
    the stream is left as it was. *)
Theorem short_first_chunk_throws (this : PacketStream) :
  HEADER_LENGTH <= bufLen this ->
  match buf this with
  | [] => tryReadPacket false this = Throw TypeError this
  | b :: _ =>
      byteLength b < HEADER_LENGTH ->
      tryReadPacket false this = Throw RangeError this
  end.
Proof.
  destruct this as [bf bl rd]. cbn [buf bufLen]. intros Hge. run.
  destruct (Z.ltb_spec bl HEADER_LENGTH) as [|_]; [lia|].
  destruct bf as [|b rest]; [reflexivity|].
  unfold byteLength, HEADER_LENGTH.
  destruct b as [|t [|lo [|hi b']]]; cbn [length]; intros Hshort;
    try reflexivity.
  lia.
Qed.

(** With the flag set the chunks are joined before the header is read, so
    the call throws nothing as soon as the count is the number of buffered
    bytes, however the bytes are spread over the chunks. *)
Theorem coalescing_read_never_throws (this : PacketStream) :
  bufLen this = byteLength (pending this) ->
  exists again this', tryReadPacket true this = Return again this'.
Proof.
  intros Hlen.
  assert (Hready : read_ready true this) by (split; [exact Hlen | discriminate]).
  destruct (complete_front (pending this)) eqn:Hfront.
  - destruct (pending this) as [|t [|lo [|hi tail]]] eqn:Hp; try discriminate.
    cbn [complete_front] in Hfront. apply Z.leb_le in Hfront.
    eexists _, _.
    apply (tryReadPacket_emit true this t lo hi tail Hready Hp Hfront).
  - eexists _, _. apply (tryReadPacket_wait true this Hready Hfront).
Qed.

(** The loop never takes back what was output. *)
Lemma while_fuel_output_grows n : forall flag this,
  exists ps,
    readable (state_of (while_fuel n flag this)) = readable this ++ ps.
Proof.
  induction n as [|n IH]; intros flag this.
  - exists []. cbn. symmetry. apply app_nil_r.
  - cbn [while_fuel]. unfold bind.
    pose proof (tryReadPacket_any flag this) as H.
    destruct (tryReadPacket flag this) as [[|] s|e s].
    + destruct H as (t & lo & hi & d & rest & _ & _ & _ & ->).
      destruct (IH false
                  (mkStream [rest]
                     (bufLen this - (HEADER_LENGTH + (u8 lo + u8 hi * 2 ^ 8)))
                     (readable this ++ [mkPacket (u8 t) d]))) as (ps & Hps).
      exists (mkPacket (u8 t) d :: ps). rewrite Hps. cbn [readable].
      rewrite <- app_assoc. reflexivity.
    + exists []. cbn [state_of ret]. rewrite app_nil_r. apply H.
    + exists []. cbn [state_of]. rewrite app_nil_r. apply H.
Qed.

(** Bytes without a whole packet at the front are fewer than a header and
    the longest payload together. *)
Lemma waiting_bound l : waiting l -> byteLength l <= 65537.
Proof.
  unfold waiting, byteLength.
  destruct l as [|t [|lo [|hi tail]]]; cbn [complete_front length]; try lia.
  intros Hw. apply Z.leb_gt in Hw. unfold byteLength in Hw.
  pose proof (u8_range lo). pose proof (u8_range hi).
  change (2 ^ 8) with 256 in Hw. lia.
Qed.

(** After a read from a single chunk with the right count, the loop goes
    on with a single chunk with the right count. *)
Lemma single_chunk_stays n : forall x rd,
  exists y rd',
    while_fuel n false (mkStream [x] (byteLength x) rd) =
    Return tt (mkStream [y] (byteLength y) rd').
Proof.
  induction n as [|n IH]; intros x rd; [exists x, rd; reflexivity|].
  cbn [while_fuel]. unfold bind.
  pose proof (single_chunk_ready false x rd) as Hready.
  set (this := mkStream [x] (byteLength x) rd) in *.
  destruct (complete_front (pending this)) eqn:Hfront.
  - destruct (pending this) as [|t [|lo [|hi tail]]] eqn:Hp; try discriminate.
    cbn [complete_front] in Hfront. apply Z.leb_le in Hfront.
    rewrite (tryReadPacket_emit false this t lo hi tail Hready Hp Hfront).
    assert (Hcount : bufLen this - (HEADER_LENGTH + (u8 lo + u8 hi * 2 ^ 8))
                     = byteLength
                         (skipn (Z.to_nat (u8 lo + u8 hi * 2 ^ 8)) tail)).
    { destruct Hready as [-> _]. rewrite Hp.
      pose proof (u8_range lo). pose proof (u8_range hi).
      unfold byteLength, HEADER_LENGTH in *. rewrite length_skipn.
      cbn [length]. change (2 ^ 8) with 256 in *. lia. }
    rewrite Hcount. apply IH.
  - rewrite (tryReadPacket_wait false this Hready Hfront).
    exists x, rd. reflexivity.
Qed.

Lemma received_buffers Buffer_from (cs : list Buffer) :
  received Buffer_from (map ChunkBuffer cs) = Buf.concat cs.
Proof.
  unfold received, Buf.concat.
  rewrite flat_map_concat_map, map_map. cbn [chunk_bytes].
  rewrite map_id. reflexivity.
Qed.

(** ** [_transform] and the constructor *)

Section Further.

Variable Buffer_from : string -> BufferEncoding -> Buffer.

(** The packets already output are never taken back or reordered: in any
    state and for any chunk, whether [_transform] returns or throws, the
    output afterwards is the output before with new packets at the end. *)
Theorem output_only_grows (this : PacketStream) (c : Chunk) :
  exists ps,
    readable (state_of (_transform Buffer_from c this)) = readable this ++ ps.
Proof.
  unfold _transform.
  destruct (chunk_bytes Buffer_from c) as [b|].
  - unfold bind, buf_push, get, set_bufLen, while_tryReadPacket.
    cbn [buf bufLen readable].
    set (this1 := mkStream (buf this ++ [b]) (bufLen this + byteLength b)
                           (readable this)).
    unfold bind, get, ret.
    destruct (while_fuel_output_grows (S (Z.to_nat (bufLen this1)))
                (bufLen this <? HEADER_LENGTH) this1) as (ps & Hps).
    exists ps.
    destruct (while_fuel (S (Z.to_nat (bufLen this1)))
                (bufLen this <? HEADER_LENGTH) this1) as [u s|e s];
      exact Hps.
  - exists []. cbn. symmetry. apply app_nil_r.
Qed.

(** However many chunks were fed to a fresh stream, what is buffered
    afterwards is less than one header and one payload of the greatest
    length: at most 65537 bytes. *)
Theorem buffered_bytes_bounded (chunks : list Chunk) :
  exists this,
    feed Buffer_from chunks fresh =
      Return (map (answer Buffer_from) chunks) this /\
    0 <= bufLen this <= HEADER_LENGTH + 65535 - 1 /\
    byteLength (pending this) = bufLen this.
Proof.
  destruct (feed_frames Buffer_from chunks fresh fresh_settled)
    as (ps & this & Hrun & _ & _ & [[Hlen _] Hw] & _).
  exists this. split; [exact Hrun|].
  pose proof (waiting_bound (pending this) Hw) as Hb.
  pose proof (byteLength_nonneg (pending this)) as H0.
  unfold HEADER_LENGTH. rewrite Hlen. repeat split; lia.
Qed.

(** Only the bytes count, not where the chunks end: from any state a
    stream can be in, two lists of byte chunks with the same concatenation
    lead to the same output, the same buffered bytes and the same count.
    The bytes need not be whole packets. *)
Theorem chunk_boundaries_do_not_matter (this : PacketStream)
        (chunks chunks' : list Buffer) :
  reachable Buffer_from this ->
  Buf.concat chunks = Buf.concat chunks' ->
  exists s s',
    feed Buffer_from (map ChunkBuffer chunks) this =
      Return (map (answer Buffer_from) (map ChunkBuffer chunks)) s /\
    feed Buffer_from (map ChunkBuffer chunks') this =
      Return (map (answer Buffer_from) (map ChunkBuffer chunks')) s' /\
    readable s = readable s' /\
    pending s = pending s' /\
    bufLen s = bufLen s'.
Proof.
  intros Hreach Hcat.
  pose proof (reachable_settled Buffer_from this Hreach) as Hset.
  destruct (feed_frames Buffer_from (map ChunkBuffer chunks) this Hset)
    as (ps1 & s1 & Hrun1 & Hbytes1 & Hout1 & Hset1 & Hall1).
  destruct (feed_frames Buffer_from (map ChunkBuffer chunks') this Hset)
    as (ps2 & s2 & Hrun2 & Hbytes2 & Hout2 & Hset2 & Hall2).
  rewrite received_buffers in Hbytes1, Hbytes2.
  rewrite Hcat, Hbytes2 in Hbytes1.
  destruct (framing_unique ps2 ps1 (pending s2) (pending s1) Hall2 Hall1
              (proj2 Hset2) (proj2 Hset1) Hbytes1) as [Hps Hrest].
  exists s1, s2. repeat split; try assumption.
  - rewrite Hout1, Hout2, Hps. reflexivity.
  - symmetry. exact Hrest.
  - destruct Hset1 as [[-> _] _], Hset2 as [[-> _] _].
    rewrite Hrest. reflexivity.
Qed.

(** While the stream has to wait, a chunk is stored as it is, without
    copying: the chunk list gets the chunk at its end and the count grows
    by its length.  The one exception is the call in which the third header
    byte arrives, which joins all chunks into one. *)
Theorem waiting_chunk_is_stored (this : PacketStream) (b : Buffer) :
  reachable Buffer_from this ->
  waiting (pending this ++ b) ->
  _transform Buffer_from (ChunkBuffer b) this =
  Return Done
    (if (bufLen this <? HEADER_LENGTH)
        && negb (bufLen this + byteLength b <? HEADER_LENGTH)
     then mkStream [pending this ++ b] (bufLen this + byteLength b)
                   (readable this)
     else mkStream (buf this ++ [b]) (bufLen this + byteLength b)
                   (readable this)).
Proof.
  intros Hreach Hw.
  pose proof (reachable_settled Buffer_from this Hreach) as Hset.
  pose proof (pushed_ready this b (proj1 Hset)) as Hpushed.
  set (this1 := mkStream (buf this ++ [b]) (bufLen this + byteLength b)
                         (readable this)) in *.
  assert (Hp : pending this1 = pending this ++ b)
    by (unfold this1; apply pending_push).
  rewrite <- Hp in Hw.
  unfold _transform. cbn [chunk_bytes].
  unfold bind, buf_push, get, set_bufLen, while_tryReadPacket, ret.
  cbn [buf bufLen readable]. fold this1. unfold bind, get.
  cbn [while_fuel]. unfold bind.
  rewrite (tryReadPacket_wait _ this1 Hpushed Hw).
  unfold after_wait, ret. rewrite Hp. reflexivity.
Qed.

(** A call that finds a whole packet leaves a single chunk behind: the
    bytes that are left after the packets it output. *)
Theorem single_chunk_after_output (this : PacketStream) (b : Buffer) :
  reachable Buffer_from this ->
  complete_front (pending this ++ b) = true ->
  exists this',
    _transform Buffer_from (ChunkBuffer b) this = Return Done this' /\
    buf this' = [pending this'] /\
    exists p ps, readable this' = readable this ++ p :: ps.
Proof.
  intros Hreach Hfront.
  pose proof (reachable_settled Buffer_from this Hreach) as Hset.
  pose proof (pushed_ready this b (proj1 Hset)) as Hpushed.
  set (this1 := mkStream (buf this ++ [b]) (bufLen this + byteLength b)
                         (readable this)) in *.
  assert (Hp : pending this1 = pending this ++ b)
    by (unfold this1; apply pending_push).
  rewrite <- Hp in Hfront.
  destruct (pending this1) as [|t [|lo [|hi tail]]] eqn:Hp1; try discriminate.
  cbn [complete_front] in Hfront. apply Z.leb_le in Hfront.
  pose proof (tryReadPacket_emit _ this1 t lo hi tail Hpushed Hp1 Hfront)
    as Hemit.
  assert (Hcount : bufLen this1 - (HEADER_LENGTH + (u8 lo + u8 hi * 2 ^ 8))
                   = byteLength
                       (skipn (Z.to_nat (u8 lo + u8 hi * 2 ^ 8)) tail)).
  { destruct Hpushed as [-> _]. rewrite Hp1.
    pose proof (u8_range lo). pose proof (u8_range hi).
    unfold byteLength, HEADER_LENGTH in *. rewrite length_skipn.
    cbn [length]. change (2 ^ 8) with 256 in *. lia. }
  rewrite Hcount in Hemit.
  set (this2 := mkStream [skipn (Z.to_nat (u8 lo + u8 hi * 2 ^ 8)) tail]
                  (byteLength (skipn (Z.to_nat (u8 lo + u8 hi * 2 ^ 8)) tail))
                  (readable this1
                     ++ [mkPacket (u8 t)
                           (firstn (Z.to_nat (u8 lo + u8 hi * 2 ^ 8)) tail)]))
    in *.
  destruct (single_chunk_stays (Z.to_nat (bufLen this1))
              (skipn (Z.to_nat (u8 lo + u8 hi * 2 ^ 8)) tail) (readable this2))
    as (y & rd' & Hloop).
  destruct (while_fuel_output_grows (Z.to_nat (bufLen this1)) false this2)
    as (ps & Hps).
  change (while_fuel (Z.to_nat (bufLen this1)) false this2
          = Return tt (mkStream [y] (byteLength y) rd')) in Hloop.
  rewrite Hloop in Hps. cbn [state_of readable] in Hps.
  exists (mkStream [y] (byteLength y) rd'). split; [|split].
  - unfold _transform. cbn [chunk_bytes].
    unfold bind, buf_push, get, set_bufLen, while_tryReadPacket, ret.
    cbn [buf bufLen readable]. fold this1. unfold bind, get.
    cbn [while_fuel]. unfold bind.
    rewrite Hemit, Hloop. reflexivity.
  - unfold pending, Buf.concat. cbn. rewrite app_nil_r. reflexivity.
  - eexists _, ps. cbn [readable]. rewrite Hps. unfold this2, this1.
    cbn [readable]. rewrite <- app_assoc. reflexivity.
Qed.


End Further.

(** ** The further properties at concrete streams *)

Lemma failed_read_keeps_everything_witness :
  let this := mkStream [[x01]; [x05; x00]; [xaa]] 4 [] in
  let this' := mkStream [[x01; x05; x00; xaa]] 4 [] in
  tryReadPacket true this = Return false this' /\
  (readable this' = readable this /\
   bufLen this' = bufLen this /\
   pending this' = pending this).
Proof.
  intros this this'.
  assert (Hrun : tryReadPacket true this = Return false this') by reflexivity.
  split; [exact Hrun|].
  exact (failed_read_keeps_everything true this this' Hrun).
Defined.

Lemma successful_read_takes_one_packet_witness :
  let this := mkStream [[x01; x01; x00]; [xaa; xbb]] 5 [] in
  let this' := mkStream [[xbb]] 1 [mkPacket 1 [xaa]] in
  tryReadPacket false this = Return true this' /\
  exists p t lo hi,
    pending this = t :: lo :: hi :: data p ++ pending this' /\
    type p = u8 t /\
    byteLength (data p) <= u8 lo + 256 * u8 hi <= 65535 /\
    readable this' = readable this ++ [p] /\
    buf this' = [pending this'] /\
    bufLen this' = bufLen this - (HEADER_LENGTH + (u8 lo + 256 * u8 hi)) /\
    0 <= bufLen this'.
Proof.
  intros this this'.
  assert (Hrun : tryReadPacket false this = Return true this') by reflexivity.
  split; [exact Hrun|].
  exact (successful_read_takes_one_packet false this this' Hrun).
Defined.

Lemma short_first_chunk_throws_witness :
  let this := mkStream [[x01]; [x00; x00]] 3 [] in
  HEADER_LENGTH <= bufLen this /\
  byteLength [x01] < HEADER_LENGTH /\
  tryReadPacket false this = Throw RangeError this.
Proof.
  intros this.
  assert (Hge : HEADER_LENGTH <= bufLen this) by (vm_compute; discriminate).
  assert (Hshort : byteLength [x01] < HEADER_LENGTH) by reflexivity.
  split; [exact Hge|]. split; [exact Hshort|].
  exact (short_first_chunk_throws this Hge Hshort).
Defined.

Lemma coalescing_read_never_throws_witness :
  let this := mkStream [[x01]; [x00; x00]] 3 [] in
  bufLen this = byteLength (pending this) /\
  exists again this', tryReadPacket true this = Return again this'.
Proof.
  intros this.
  assert (Hlen : bufLen this = byteLength (pending this)) by reflexivity.
  split; [exact Hlen|].
  exact (coalescing_read_never_throws this Hlen).
Defined.

Lemma chunk_boundaries_do_not_matter_witness :
  let this := mkStream [[x01; x05; x00; xaa]] 4 [] in
  let chunks := [[xbb; xcc]; [xdd]] in
  let chunks' := [[xbb]; []; [xcc; xdd]] in
  reachable latin1_from this /\
  Buf.concat chunks = Buf.concat chunks' /\
  exists s s',
    feed latin1_from (map ChunkBuffer chunks) this =
      Return (map (answer latin1_from) (map ChunkBuffer chunks)) s /\
    feed latin1_from (map ChunkBuffer chunks') this =
      Return (map (answer latin1_from) (map ChunkBuffer chunks')) s' /\
    readable s = readable s' /\
    pending s = pending s' /\
    bufLen s = bufLen s'.
Proof.
  intros this chunks chunks'.
  assert (Hcat : Buf.concat chunks = Buf.concat chunks') by reflexivity.
  split; [exact half_fed_reachable|]. split; [exact Hcat|].
  exact (chunk_boundaries_do_not_matter latin1_from this chunks chunks'
           half_fed_reachable Hcat).
Defined.

Lemma waiting_chunk_is_stored_witness :
  let this := mkStream [[x01; x05; x00; xaa]] 4 [] in
  reachable latin1_from this /\
  waiting (pending this ++ [xbb]) /\
  _transform latin1_from (ChunkBuffer [xbb]) this =
  Return Done
    (if (bufLen this <? HEADER_LENGTH)
        && negb (bufLen this + byteLength [xbb] <? HEADER_LENGTH)
     then mkStream [pending this ++ [xbb]] (bufLen this + byteLength [xbb])
                   (readable this)
     else mkStream (buf this ++ [[xbb]]) (bufLen this + byteLength [xbb])
                   (readable this)).
Proof.
  intros this.
  assert (Hw : waiting (pending this ++ [xbb])) by reflexivity.
  split; [exact half_fed_reachable|]. split; [exact Hw|].
  exact (waiting_chunk_is_stored latin1_from this [xbb] half_fed_reachable Hw).
Defined.

Lemma single_chunk_after_output_witness :
  let this := mkStream [[x01; x05; x00; xaa]] 4 [] in
  let b := [xbb; xcc; xdd; xee; x07] in
  reachable latin1_from this /\
  complete_front (pending this ++ b) = true /\
  exists this',
    _transform latin1_from (ChunkBuffer b) this = Return Done this' /\
    buf this' = [pending this'] /\
    exists p ps, readable this' = readable this ++ p :: ps.
Proof.
  intros this b.
  assert (Hfront : complete_front (pending this ++ b) = true) by reflexivity.
  split; [exact half_fed_reachable|]. split; [exact Hfront|].
  exact (single_chunk_after_output latin1_from this b half_fed_reachable Hfront).
Defined.
